(** * TarefasAPI: the in-memory task store of [node-api/index.js]

    A shallow embedding of the Express handlers of [index.js] together with
    the properties of the store they maintain.  The process-wide globals
    [dataMap] and [nextId] become an explicit [state] that every handler
    takes and returns; a handler is a function from the state and the
    parsed request to the new state and what was sent to the client. *)

From Stdlib Require Import Floats.SpecFloat.
From stdpp Require Import base numbers list sorting strings pretty.

Set Warnings "-register-all".
Local Open Scope string_scope.
Local Open Scope list_scope.
Local Open Scope N_scope.

(** ** JavaScript values

    What [express.json()] hands to a handler is a parsed JSON value.  The
    handlers go on to mutate it ([task.id = id], [delete task.value.id]), and
    an assignment to a named property of an array is kept by the array next
    to its elements, so arrays carry a second list for such properties (it is
    empty right after parsing).  Numbers are IEEE doubles; only their
    truthiness is looked at.  A string is its sequence of code units.

    Objects hold their properties in insertion order.  Every request body is
    parsed afresh and a stored object is never mutated after [dataMap.set],
    so no two live references ever observe each other's writes and values
    can be passed by copy. *)
Inductive value : Type :=
| VNull
| VBool (b : bool)
| VNum (x : spec_float)
| VStr (s : string)
| VArr (elems : list value) (props : list (string * value))
| VObj (props : list (string * value)).

(** ** Insertion-ordered string-keyed tables

    Both a JavaScript object and a [Map] with string keys keep one entry
    per key, in the order the keys were first inserted.  [get] reads the
    entry of a key and [delete] leaves none behind. *)
Module Table.
Section ops.
Context {V : Type}.

Fixpoint get (k : string) (m : list (string * V)) : option V :=
  match m with
  | [] => None
  | (k', v) :: m' => if decide (k' = k) then Some v else get k m'
  end.

Definition has (k : string) (m : list (string * V)) : bool :=
  match get k m with Some _ => true | None => false end.

(** An existing key keeps its position, a new key goes last. *)
Fixpoint set (k : string) (v : V) (m : list (string * V)) : list (string * V) :=
  match m with
  | [] => [(k, v)]
  | (k', v') :: m' =>
      if decide (k' = k) then (k, v) :: m' else (k', v') :: set k v m'
  end.

Fixpoint delete (k : string) (m : list (string * V)) : list (string * V) :=
  match m with
  | [] => []
  | (k', v') :: m' =>
      if decide (k' = k) then delete k m' else (k', v') :: delete k m'
  end.

Definition keys (m : list (string * V)) : list string := m.*1.
End ops.
End Table.

(** ** The fragment of JavaScript the handlers use *)

(** [ToBoolean]. *)
Definition truthy (v : value) : bool :=
  match v with
  | VNull => false
  | VBool b => b
  | VNum (S754_zero _) | VNum S754_nan => false
  | VNum _ => true
  | VStr "" => false
  | VStr _ => true
  | VArr _ _ | VObj _ => true
  end.

(** The result of a property read is [None] for [undefined]. *)
Definition truthy_opt (o : option value) : bool :=
  match o with Some v => truthy v | None => false end.

(** [typeof x === 'boolean'] *)
Definition is_boolean (o : option value) : bool :=
  match o with Some (VBool _) => true | _ => false end.

(** [v.k] for a [v] that is not [null], at the names the handlers read
    ([value], [id], [title], [describe], [isCompleted]): none of them is an
    index, [length] or a property of a built-in prototype, so a primitive has
    none and an array only what was assigned to it. *)
Definition get_prop (k : string) (v : value) : option value :=
  match v with
  | VObj ps => Table.get k ps
  | VArr _ ps => Table.get k ps
  | _ => None
  end.

Definition update_prop (k : string) (x : value) (v : value) : value :=
  match v with
  | VObj ps => VObj (Table.set k x ps)
  | VArr es ps => VArr es (Table.set k x ps)
  | _ => v
  end.

(** [v.k = x] in sloppy mode (the file has no ['use strict']): a [TypeError]
    ([None]) on [null], silently nothing on any other primitive. *)
Definition set_prop (k : string) (x : value) (v : value) : option value :=
  match v with
  | VNull => None
  | _ => Some (update_prop k x v)
  end.

(** [delete v.k] *)
Definition delete_prop (k : string) (v : value) : value :=
  match v with
  | VObj ps => VObj (Table.delete k ps)
  | VArr es ps => VArr es (Table.delete k ps)
  | _ => v
  end.

(** The own enumerable properties that [...v] copies: the indices of an
    array or of a string come first. *)
Definition own_props (v : value) : list (string * value) :=
  match v with
  | VObj ps => ps
  | VArr es ps => imap (λ i e, (pretty i, e)) es ++ ps
  | VStr s => imap (λ i c, (pretty i, VStr (String c ""))) (String.list_ascii_of_string s)
  | _ => []
  end.

(** [{ id, ...v }]: the [id] property is written first and the spread
    then defines every own property of [v] over it. *)
Definition with_id (id : string) (v : value) : value :=
  VObj (foldl (λ acc kv, Table.set kv.1 kv.2 acc) [("id", VStr id)] (own_props v)).

(** ** The store *)

(** [nextId] is a JavaScript number.  It starts at 1 and is only ever
    incremented, and a double holds every integer up to [2^53] exactly; at
    [2^53] the sum [nextId + 1] is a tie that rounds to even, back to
    [2^53]. *)
Definition max_exact : N := 2 ^ 53.

Definition js_succ (n : N) : N := if n <? max_exact then n + 1 else n.

Record state : Type := State {
  dataMap : list (string * value);
  nextId : N
}.

Definition init : state := {| dataMap := []; nextId := 1 |}.

(** What a handler leaves behind: the status and the value it hands to
    [res.json], a bare status with an [Allow] header, or an exception that
    escapes the handler. *)
Inductive outcome : Type :=
| Json (status : N) (body : value)
| Allow (status : N) (methods : string)
| TypeError.

Definition not_found (msg : string) : outcome :=
  Json 404 (VObj [("error", VStr msg)]).

(** [app.get('/tasks')] *)
Definition get_tasks (st : state) : state * outcome :=
  (st, Json 200 (VArr (map (λ kv, with_id kv.1 kv.2) (dataMap st)) [])).

(** [app.get('/tasks/:id')]: [dataMap.has(id)] and [dataMap.get(id)] in one
    match. *)
Definition get_task (id : string) (st : state) : state * outcome :=
  match Table.get id (dataMap st) with
  | Some v => (st, Json 200 (with_id id v))
  | None => (st, not_found "Item não encontrado")
  end.

(** [if (task.value && task.value.id) { delete task.value.id; }] *)
Definition strip_value_id (task : value) : value :=
  match get_prop "value" task with
  | Some inner =>
      if truthy inner && truthy_opt (get_prop "id" inner)
      then update_prop "value" (delete_prop "id" inner) task
      else task
  | None => task
  end.

Definition collision (id : string) : value :=
  VObj [("id", VStr id); ("error", VStr "ID já existe")].

(** The [for (const task of body)] loop of the array branch, with its two
    accumulators.  Each turn reads [(nextId++).toString()], assigns it to
    [task.id], strips the nested id and then either reports the id as
    taken or stores the task.  [None] in the result is the [TypeError] of
    [task.id = id] on a [null] element, which leaves the loop with [nextId]
    already incremented and the earlier elements stored. *)
Fixpoint post_loop (tasks : list value) (st : state) (addedTasks errors : list value)
  : state * option (list value * list value) :=
  match tasks with
  | [] => (st, Some (addedTasks, errors))
  | task :: rest =>
      let id := pretty (nextId st) in
      let st1 := {| dataMap := dataMap st; nextId := js_succ (nextId st) |} in
      match set_prop "id" (VStr id) task with
      | None => (st1, None)
      | Some task1 =>
          let task2 := strip_value_id task1 in
          if Table.has id (dataMap st1)
          then post_loop rest st1 addedTasks (errors ++ [collision id])
          else post_loop rest
                 {| dataMap := Table.set id task2 (dataMap st1); nextId := nextId st1 |}
                 (addedTasks ++ [task2]) errors
      end
  end.

(** [app.post('/tasks')] *)
Definition post_tasks (body : value) (st : state) : state * outcome :=
  match body with
  | VArr tasks _ =>
      match post_loop tasks st [] [] with
      | (st', Some (addedTasks, errors)) =>
          if bool_decide (0 < length errors)%nat
          then (st', Json 400 (VObj [("errors", VArr errors [])]))
          else (st', Json 201 (VArr addedTasks []))
      | (st', None) => (st', TypeError)
      end
  | _ =>
      let id := pretty (nextId st) in
      let st1 := {| dataMap := dataMap st; nextId := js_succ (nextId st) |} in
      match set_prop "id" (VStr id) body with
      | None => (st1, TypeError)
      | Some body1 =>
          let body2 := strip_value_id body1 in
          ({| dataMap := Table.set id body2 (dataMap st1); nextId := nextId st1 |},
           Json 201 body2)
      end
  end.

(** [app.delete('/tasks/:id')] *)
Definition delete_task (id : string) (st : state) : state * outcome :=
  if Table.has id (dataMap st)
  then ({| dataMap := Table.delete id (dataMap st); nextId := nextId st |},
        Json 200 (VObj [("message", VStr "Item deletado com sucesso")]))
  else (st, not_found "Item não encontrado").

(** [app.patch('/tasks/:id')] *)
Definition patch_task (id : string) (body : value) (st : state) : state * outcome :=
  if Table.has id (dataMap st)
  then ({| dataMap := Table.set id body (dataMap st); nextId := nextId st |},
        Json 201 body)
  else (st, not_found "Item não encontrado").

(** [app.put('/tasks/:id')] *)
Definition put_task (id : string) (updatedTask : value) (st : state) : state * outcome :=
  if negb (Table.has id (dataMap st))
  then (st, not_found "Tarefa não encontrada")
  else
    match updatedTask with
    | VNull => (st, TypeError)
    | _ =>
        if negb (truthy_opt (get_prop "title" updatedTask))
           || negb (truthy_opt (get_prop "describe" updatedTask))
           || negb (is_boolean (get_prop "isCompleted" updatedTask))
        then (st, Json 400 (VObj [("error", VStr "Dados inválidos ou campos obrigatórios ausentes")]))
        else ({| dataMap := Table.set id updatedTask (dataMap st); nextId := nextId st |},
              Json 200 (with_id id updatedTask))
    end.

(** [app.options('/tasks')] and [app.options('/tasks/:id')] *)
Definition options_tasks (st : state) : state * outcome :=
  (st, Allow 200 "GET, POST, OPTIONS, DELETE, PATCH").

Definition options_task (st : state) : state * outcome :=
  (st, Allow 200 "GET, PATCH, PUT, DELETE, OPTIONS").

(** ** Requests and runs of the server *)

Inductive request : Type :=
| GET_tasks
| GET_task (id : string)
| POST_tasks (body : value)
| DELETE_task (id : string)
| PATCH_task (id : string) (body : value)
| PUT_task (id : string) (body : value)
| OPTIONS_tasks
| OPTIONS_task (id : string).

Definition handle (r : request) (st : state) : state * outcome :=
  match r with
  | GET_tasks => get_tasks st
  | GET_task id => get_task id st
  | POST_tasks body => post_tasks body st
  | DELETE_task id => delete_task id st
  | PATCH_task id body => patch_task id body st
  | PUT_task id body => put_task id body st
  | OPTIONS_tasks => options_tasks st
  | OPTIONS_task _ => options_task st
  end.

(** Node runs one handler at a time, to completion. *)
Fixpoint run (reqs : list request) (st : state) : state :=
  match reqs with
  | [] => st
  | r :: rest => run rest (handle r st).1
  end.

Definition reachable (st : state) : Prop := ∃ reqs, run reqs init = st.

Definition is_post (r : request) : bool :=
  match r with POST_tasks _ => true | _ => false end.

(** ** The identifiers a run generates

    Every evaluation of [(nextId++).toString()] reads one value of the
    counter.  [generated r st] lists the values that request [r] reads when
    it is served in [st], in order: one per element of an array body up to
    and including a [null] element, at which the loop is left, and one for
    any other body. *)
Fixpoint loop_ids (tasks : list value) (n : N) : list N :=
  match tasks with
  | [] => []
  | VNull :: _ => [n]
  | _ :: rest => n :: loop_ids rest (js_succ n)
  end.

Definition generated (r : request) (st : state) : list N :=
  match r with
  | POST_tasks (VArr tasks _) => loop_ids tasks (nextId st)
  | POST_tasks _ => [nextId st]
  | _ => []
  end.




(** The run that creates and deletes [count] tasks one after the other,
    starting when the counter is at [n]. *)
Fixpoint churn (count : nat) (n : N) : list request :=
  match count with
  | O => []
  | S count' => POST_tasks (VObj []) :: DELETE_task (pretty n) :: churn count' (n + 1)
  end.

(** The invariant behind identifier generation: every key of [dataMap] is
    the decimal string of a number, and of one below [nextId] for as long as
    [nextId] has not reached [2^53]. *)
Definition ids_fresh (st : state) : Prop :=
  ∀ k, Table.has k (dataMap st) = true →
       ∃ n, k = pretty n ∧ (nextId st < max_exact → n < nextId st).


(** The state in which the counter has reached [2^53] and sticks. *)
Definition saturated : state := {| dataMap := []; nextId := max_exact |}.

(** The requests that HTTP calls safe: the two [GET] routes and the two
    [OPTIONS] routes. *)
Definition is_safe (r : request) : bool :=
  match r with
  | GET_tasks | GET_task _ | OPTIONS_tasks | OPTIONS_task _ => true
  | _ => false
  end.

(** [v.value && v.value.id], the test that guards the deletion of the
    nested id. *)
Definition has_truthy_nested_id (v : value) : bool :=
  match get_prop "value" v with
  | Some inner => truthy inner && truthy_opt (get_prop "id" inner)
  | None => false
  end.

(** The test of [app.put] on the fields of its body, [true] when the body
    is refused. *)
Definition put_refuses (updatedTask : value) : bool :=
  negb (truthy_opt (get_prop "title" updatedTask))
  || negb (truthy_opt (get_prop "describe" updatedTask))
  || negb (is_boolean (get_prop "isCompleted" updatedTask)).

Definition is_null (v : value) : bool :=
  match v with VNull => true | _ => false end.

(** What holds of the store whenever a handler starts: the counter is an
    integer from 1 to [2^53], [dataMap] has one entry per key, and every key
    is the decimal string of a value the counter has had. *)
Definition store_ok (st : state) : Prop :=
  1 ≤ nextId st ≤ max_exact
  ∧ NoDup (Table.keys (dataMap st))
  ∧ ∀ k, Table.has k (dataMap st) = true → ∃ n, k = pretty n ∧ 1 ≤ n ≤ nextId st.

(** * Properties *)

(** ** Tables *)
Section table_facts.
Context {V : Type}.
Implicit Types (k : string) (v : V) (m : list (string * V)).

Lemma has_true k m : Table.has k m = true ↔ is_Some (Table.get k m).
Proof.
  unfold Table.has. destruct (Table.get k m); split; try done; eauto.
Qed.

Lemma has_false k m : Table.has k m = false ↔ Table.get k m = None.
Proof. unfold Table.has. destruct (Table.get k m); split; congruence. Qed.

Lemma has_keys k m : Table.has k m = true ↔ k ∈ Table.keys m.
Proof.
  rewrite has_true. unfold Table.keys.
  induction m as [|[k' v'] m IH]; simpl.
  - rewrite elem_of_nil. split; [by intros []|done].
  - rewrite elem_of_cons. case_decide; subst.
    + split; eauto.
    + rewrite IH. split; [by right|]. by intros [?|?].
Qed.

Lemma get_set_eq k v m : Table.get k (Table.set k v m) = Some v.
Proof.
  induction m as [|[k' v'] m IH]; simpl; repeat (case_decide; simpl); congruence.
Qed.

Lemma get_set_ne k k' v m : k ≠ k' → Table.get k' (Table.set k v m) = Table.get k' m.
Proof.
  intros Hne.
  induction m as [|[k2 v2] m IH]; simpl; repeat (case_decide; simpl); congruence.
Qed.

Lemma get_delete_eq k m : Table.get k (Table.delete k m) = None.
Proof.
  induction m as [|[k' v'] m IH]; simpl; repeat (case_decide; simpl); congruence.
Qed.

Lemma get_delete_ne k k' m : k ≠ k' → Table.get k' (Table.delete k m) = Table.get k' m.
Proof.
  intros Hne.
  induction m as [|[k2 v2] m IH]; simpl; repeat (case_decide; simpl); congruence.
Qed.

Lemma has_set k k' v m :
  Table.has k' (Table.set k v m) = true ↔ k' = k ∨ Table.has k' m = true.
Proof.
  rewrite !has_true. destruct (decide (k = k')) as [->|Hne].
  - rewrite get_set_eq. split; [by left|by eauto].
  - rewrite get_set_ne by done. split; [by right|]. by intros [?|?].
Qed.

Lemma has_delete k k' m :
  Table.has k' (Table.delete k m) = true ↔ k' ≠ k ∧ Table.has k' m = true.
Proof.
  rewrite !has_true. destruct (decide (k = k')) as [->|Hne].
  - rewrite get_delete_eq. split; [by intros [??]|by intros [? _]].
  - rewrite get_delete_ne by done. split; [done|by intros [_ ?]].
Qed.
End table_facts.

(** ** Reading and writing properties *)

Lemma get_update_prop_ne k k' x v :
  k ≠ k' → get_prop k' (update_prop k x v) = get_prop k' v.
Proof. intros ?. destruct v; simpl; try done; by apply get_set_ne. Qed.

Lemma strip_value_id_other k task :
  k ≠ "value" → get_prop k (strip_value_id task) = get_prop k task.
Proof.
  intros ?. unfold strip_value_id.
  destruct (get_prop "value" task) as [inner|]; [|done].
  destruct (truthy inner && truthy_opt (get_prop "id" inner)); [|done].
  by apply get_update_prop_ne.
Qed.

(** The nested [id] goes when [value] and [value.id] are both truthy. *)
Lemma strip_value_id_truthy task inner :
  get_prop "value" task = Some inner →
  truthy inner = true → truthy_opt (get_prop "id" inner) = true →
  get_prop "value" (strip_value_id task) = Some (delete_prop "id" inner)
  ∧ get_prop "id" (delete_prop "id" inner) = None.
Proof.
  intros Hv Ht Hid. unfold strip_value_id. rewrite Hv, Ht, Hid. simpl. split.
  - destruct task; simpl in *; try done; by rewrite get_set_eq.
  - destruct inner; simpl; try done; by rewrite get_delete_eq.
Qed.

(** Otherwise the task is left exactly as it is. *)
Lemma strip_value_id_falsy task :
  (∀ inner, get_prop "value" task = Some inner →
            truthy inner = false ∨ truthy_opt (get_prop "id" inner) = false) →
  strip_value_id task = task.
Proof.
  intros H. unfold strip_value_id.
  destruct (get_prop "value" task) as [inner|]; [|done].
  by destruct (H inner eq_refl) as [-> | ->]; rewrite ?andb_false_r.
Qed.

Lemma strip_value_id_changes task :
  strip_value_id task ≠ task →
  ∃ inner, get_prop "value" task = Some inner
           ∧ truthy inner = true ∧ truthy_opt (get_prop "id" inner) = true.
Proof.
  unfold strip_value_id. intros H.
  destruct (get_prop "value" task) as [inner|]; [|done].
  exists inner. split; [done|].
  destruct (truthy inner), (truthy_opt (get_prop "id" inner)); done.
Qed.

Lemma js_succ_below n : n < max_exact → js_succ n = n + 1.
Proof. unfold js_succ. intros ?. by rewrite (proj2 (N.ltb_lt _ _)). Qed.

Lemma js_succ_stuck : js_succ max_exact = max_exact.
Proof. reflexivity. Qed.

Lemma js_succ_mono n : n ≤ js_succ n.
Proof. unfold js_succ. case_match; lia. Qed.

Lemma js_succ_lt n : js_succ n < max_exact → n < max_exact ∧ js_succ n = n + 1.
Proof. unfold js_succ. destruct (N.ltb_spec n max_exact); lia. Qed.

(** ** Single-object creation *)

(** C7 (as amended): for every store state and every object body, [POST
    /tasks] never fails: it answers 201 with the stored record, which it
    stores under the decimal string of the current [nextId] and which
    carries that string as its [id]; [nextId] goes to its JavaScript
    successor, which is [nextId + 1] below [2^53]; the nested [id] under
    [value] is removed when [value] and [value.id] are both truthy, and the
    record is otherwise stored as received. *)
Theorem post_single_object st ps :
  let id := pretty (nextId st) in
  let received := VObj (Table.set "id" (VStr id) ps) in
  ∃ stored,
    post_tasks (VObj ps) st
    = ({| dataMap := Table.set id stored (dataMap st); nextId := js_succ (nextId st) |},
       Json 201 stored)
    ∧ Table.get id (Table.set id stored (dataMap st)) = Some stored
    ∧ get_prop "id" stored = Some (VStr id)
    ∧ (nextId st < max_exact → js_succ (nextId st) = nextId st + 1)
    ∧ (∀ k, k ≠ "value" → k ≠ "id" → get_prop k stored = Table.get k ps)
    ∧ (∀ inner, Table.get "value" ps = Some inner →
         truthy inner = true → truthy_opt (get_prop "id" inner) = true →
         get_prop "value" stored = Some (delete_prop "id" inner)
         ∧ get_prop "id" (delete_prop "id" inner) = None)
    ∧ ((∀ inner, Table.get "value" ps = Some inner →
          truthy inner = false ∨ truthy_opt (get_prop "id" inner) = false) →
       stored = received).
Proof.
  intros id received. exists (strip_value_id received).
  assert (Hval : get_prop "value" received = Table.get "value" ps).
  { simpl. by rewrite get_set_ne. }
  repeat split.
  - by rewrite get_set_eq.
  - rewrite strip_value_id_other by done. simpl. by rewrite get_set_eq.
  - apply js_succ_below.
  - intros k ??. rewrite strip_value_id_other by done. simpl. by rewrite get_set_ne.
  - eapply strip_value_id_truthy; eauto. by rewrite Hval.
  - eapply strip_value_id_truthy; eauto. by rewrite Hval.
  - intros H. apply strip_value_id_falsy. intros inner. rewrite Hval. apply H.
Qed.

Lemma post_single_object_witness :
  ∃ stored,
    post_tasks (VObj [("title", VStr "a"); ("value", VObj [("id", VStr "x"); ("n", VNull)])]) init
    = ({| dataMap := [("1", stored)]; nextId := 2 |}, Json 201 stored)
    ∧ get_prop "value" stored = Some (VObj [("n", VNull)])
    ∧ js_succ 1 = 2.
Proof.
  destruct (post_single_object init
              [("title", VStr "a"); ("value", VObj [("id", VStr "x"); ("n", VNull)])])
    as (stored & Hpost & _ & _ & Hsucc & _ & Hstrip & _).
  exists stored. split; [exact Hpost|]. split.
  - exact (proj1 (Hstrip _ eq_refl eq_refl eq_refl)).
  - apply Hsucc. reflexivity.
Defined.

(** C7 as the specification words it fails where [value.id] is falsy: the
    record [{value: {id: 0}}] is stored with its nested [id].  And where the
    counter has reached [2^53] a creation leaves [nextId] as it is. *)
Lemma post_single_keeps_falsy_nested_id :
  let body := VObj [("value", VObj [("id", VNum (S754_zero false))])] in
  let st' := (post_tasks body init).1 in
  (∃ stored inner,
     Table.get "1" (dataMap st') = Some stored
     ∧ get_prop "value" stored = Some inner
     ∧ get_prop "id" inner = Some (VNum (S754_zero false)))
  ∧ nextId (post_tasks (VObj []) saturated).1 = nextId saturated.
Proof. split; [|by vm_compute]. simpl. eexists _, _. repeat split. Qed.

(** C9: in both branches of [POST /tasks] the nested [id] is deleted only
    when [value] and [value.id] are both truthy; a record whose [value.id]
    is [0], the empty string, [false] or [null] is stored with that nested
    [id] still in place. *)
Theorem nested_id_kept_unless_truthy :
  (∀ task, strip_value_id task ≠ task →
     ∃ inner, get_prop "value" task = Some inner
              ∧ truthy inner = true ∧ truthy_opt (get_prop "id" inner) = true)
  ∧ (∀ st x ps inner,
       x ∈ [VNum (S754_zero false); VStr ""; VBool false; VNull] →
       Table.get "value" ps = Some (VObj inner) →
       Table.get "id" inner = Some x →
       let id := pretty (nextId st) in
       (∃ stored,
          Table.get id (dataMap (post_tasks (VObj ps) st).1) = Some stored
          ∧ (post_tasks (VObj ps) st).2 = Json 201 stored
          ∧ get_prop "value" stored = Some (VObj inner))
       ∧ (Table.has id (dataMap st) = false →
          ∃ stored,
            Table.get id (dataMap (post_tasks (VArr [VObj ps] []) st).1) = Some stored
            ∧ (post_tasks (VArr [VObj ps] []) st).2 = Json 201 (VArr [stored] [])
            ∧ get_prop "value" stored = Some (VObj inner))).
Proof.
  split; [exact strip_value_id_changes|].
  intros st x ps inner Hx Hv Hid id.
  assert (Hfalsy : truthy x = false).
  { repeat (apply elem_of_cons in Hx as [->|Hx]; [done|]). by apply elem_of_nil in Hx. }
  assert (Hkeep : strip_value_id (VObj (Table.set "id" (VStr id) ps))
                  = VObj (Table.set "id" (VStr id) ps)).
  { apply strip_value_id_falsy. intros inner'. simpl. rewrite get_set_ne by done.
    rewrite Hv. intros [= <-]. right. simpl. by rewrite Hid. }
  assert (Hval : get_prop "value" (VObj (Table.set "id" (VStr id) ps)) = Some (VObj inner)).
  { simpl. by rewrite get_set_ne. }
  split.
  - exists (VObj (Table.set "id" (VStr id) ps)). simpl. fold id.
    rewrite Hkeep, get_set_eq. done.
  - intros Hfresh. exists (VObj (Table.set "id" (VStr id) ps)).
    simpl. fold id. rewrite Hfresh, Hkeep. simpl. rewrite get_set_eq. done.
Qed.

Lemma nested_id_kept_unless_truthy_witness :
  ∃ stored,
    Table.get "1" (dataMap (post_tasks (VArr [VObj [("value", VObj [("id", VStr "")])]] []) init).1)
    = Some stored
    ∧ get_prop "value" stored = Some (VObj [("id", VStr "")]).
Proof.
  destruct (proj2 nested_id_kept_unless_truthy init (VStr "")
              [("value", VObj [("id", VStr "")])] [("id", VStr "")])
    as [_ Hbatch].
  - rewrite !elem_of_cons. right. left. reflexivity.
  - reflexivity.
  - reflexivity.
  - destruct (Hbatch eq_refl) as (stored & Hget & _ & Hval). by exists stored.
Defined.

(** ** Batch creation: the empty batch *)

(** C10: for every store state, [POST /tasks] with an empty array answers
    201 with an empty array and leaves [dataMap] and [nextId] as they
    were. *)
Theorem post_empty_array st props :
  post_tasks (VArr [] props) st = (st, Json 201 (VArr [] [])).
Proof. reflexivity. Qed.

(** ** Reads and deletions *)

(** Only [POST /tasks] brings a new key into [dataMap]. *)
Lemma keys_only_grow_by_post r st k :
  is_post r = false →
  Table.has k (dataMap (handle r st).1) = true → Table.has k (dataMap st) = true.
Proof.
  destruct r as [|id|body|id|id body|id body| |id]; simpl; try done; intros _.
  - unfold get_task. by destruct (Table.get id (dataMap st)).
  - unfold delete_task. destruct (Table.has id (dataMap st)) eqn:Hid; simpl; [|done].
    rewrite has_delete. by intros [_ ?].
  - unfold patch_task. destruct (Table.has id (dataMap st)) eqn:Hid; simpl; [|done].
    rewrite has_set. by intros [->|?].
  - unfold put_task. destruct (Table.has id (dataMap st)) eqn:Hid; simpl; [|done].
    destruct body; simpl; try done;
      match goal with |- context [if ?c then _ else _] => destruct c end; simpl; try done;
      rewrite has_set; by intros [->|?].
Qed.

Lemma absent_stays_absent reqs st k :
  Forall (λ r, is_post r = false) reqs →
  Table.get k (dataMap st) = None → Table.get k (dataMap (run reqs st)) = None.
Proof.
  intros Hreqs. revert st. induction Hreqs as [|r reqs Hr _ IH]; intros st Hk; [done|].
  simpl. apply IH. apply has_false. apply has_false in Hk.
  destruct (Table.has k (dataMap (handle r st).1)) eqn:Hafter; [|done].
  apply keys_only_grow_by_post in Hafter; congruence.
Qed.

(** C8: after a successful [DELETE /tasks/:id], and whatever requests other
    than a [POST] come in between, [GET /tasks/:id] answers 404; and on an
    id that is not in the store both [GET] and [DELETE] answer 404 and leave
    the store as it is. *)
Theorem delete_then_get_not_found st id :
  (Table.has id (dataMap st) = true →
     (delete_task id st).2 = Json 200 (VObj [("message", VStr "Item deletado com sucesso")])
     ∧ ∀ reqs, Forall (λ r, is_post r = false) reqs →
         let st' := run reqs (delete_task id st).1 in
         get_task id st' = (st', not_found "Item não encontrado"))
  ∧ (Table.has id (dataMap st) = false →
       get_task id st = (st, not_found "Item não encontrado")
       ∧ delete_task id st = (st, not_found "Item não encontrado")).
Proof.
  split; intros Hid.
  - unfold delete_task. rewrite Hid. simpl. split; [done|].
    intros reqs Hreqs. cbv zeta. unfold get_task.
    rewrite absent_stays_absent; [done|done|]. simpl. apply get_delete_eq.
  - unfold get_task, delete_task. rewrite Hid. apply has_false in Hid. by rewrite Hid.
Qed.

Lemma delete_then_get_not_found_witness :
  let st := (post_tasks (VObj [("title", VStr "a")]) init).1 in
  (get_task "1" (run [PATCH_task "1" (VObj []); GET_tasks] (delete_task "1" st).1)).2
  = not_found "Item não encontrado"
  ∧ get_task "2" st = (st, not_found "Item não encontrado")
  ∧ delete_task "2" st = (st, not_found "Item não encontrado").
Proof.
  intros st. split.
  - destruct (proj1 (delete_then_get_not_found st "1") eq_refl) as [_ Hget].
    rewrite (Hget [PATCH_task "1" (VObj []); GET_tasks]); [reflexivity|].
    repeat constructor.
  - exact (proj2 (delete_then_get_not_found st "2") eq_refl).
Defined.

(** ** Replacement *)

Lemma truthy_string s : truthy (VStr s) = true ↔ s ≠ "".
Proof. destruct s; simpl; split; congruence. Qed.

(** C2 (as amended): [PUT /tasks/:id] on an id that is not in the store
    answers 404; on an id that is in the store it succeeds exactly when
    [title] and [describe] are truthy and [isCompleted] is a boolean, and
    answers 400 otherwise; neither failure changes the store.  A string is
    truthy exactly when it is not empty, but nothing asks [title] or
    [describe] to be strings. *)
Theorem put_task_validation st id body :
  let accepted :=
    truthy_opt (get_prop "title" body) = true
    ∧ truthy_opt (get_prop "describe" body) = true
    ∧ (∃ b, get_prop "isCompleted" body = Some (VBool b)) in
  (Table.has id (dataMap st) = false →
     put_task id body st = (st, not_found "Tarefa não encontrada"))
  ∧ (Table.has id (dataMap st) = true → body ≠ VNull →
       ((∃ st' sent, put_task id body st = (st', Json 200 sent)) ↔ accepted)
       ∧ (accepted →
          put_task id body st
          = ({| dataMap := Table.set id body (dataMap st); nextId := nextId st |},
             Json 200 (with_id id body)))
       ∧ (¬ accepted →
          put_task id body st
          = (st, Json 400 (VObj [("error", VStr "Dados inválidos ou campos obrigatórios ausentes")]))))
  ∧ (∀ s, truthy (VStr s) = true ↔ s ≠ "").
Proof.
  intros accepted. split; [|split; [|exact truthy_string]].
  - intros Hid. unfold put_task. by rewrite Hid.
  - intros Hid Hnull. unfold put_task. rewrite Hid. simpl.
    assert (Hacc : accepted ↔
      negb (truthy_opt (get_prop "title" body))
      || negb (truthy_opt (get_prop "describe" body))
      || negb (is_boolean (get_prop "isCompleted" body)) = false).
    { unfold accepted.
      destruct (truthy_opt (get_prop "title" body)),
               (truthy_opt (get_prop "describe" body)); simpl;
        try (split; [intros (? & ? & ?); done | done]).
      destruct (get_prop "isCompleted" body) as [[]|]; simpl;
        try (split; [intros (_ & _ & b & [=]) | done]).
      split; [done|]. eauto. }
    destruct (negb (truthy_opt (get_prop "title" body))
      || negb (truthy_opt (get_prop "describe" body))
      || negb (is_boolean (get_prop "isCompleted" body))) eqn:Hcheck.
    + assert (Hno : ¬ accepted) by (intros Ha; apply Hacc in Ha; done).
      split; [|split; [done|by destruct body]].
      split; [|done]. intros (st' & sent & Hput). by destruct body.
    + assert (Hyes : accepted) by (by apply Hacc).
      split; [|split; [by destruct body|done]].
      split; [done|]. intros _. destruct body; try done; by eexists _, _.
Qed.

Lemma put_task_validation_witness :
  let st := (post_tasks (VObj [("title", VStr "a")]) init).1 in
  let body := VObj [("title", VStr "c"); ("describe", VStr "d"); ("isCompleted", VBool true)] in
  put_task "1" body st
  = ({| dataMap := [("1", body)]; nextId := 2 |}, Json 200 (with_id "1" body))
  ∧ put_task "1" (VObj [("title", VStr ""); ("describe", VStr "d"); ("isCompleted", VBool true)]) st
    = (st, Json 400 (VObj [("error", VStr "Dados inválidos ou campos obrigatórios ausentes")]))
  ∧ put_task "2" body st = (st, not_found "Tarefa não encontrada").
Proof.
  intros st body. split; [|split].
  - destruct (put_task_validation st "1" body) as (_ & Hin & _).
    destruct Hin as (_ & Hok & _); [reflexivity|discriminate|].
    apply Hok. repeat split; eauto.
  - destruct (put_task_validation st "1"
                (VObj [("title", VStr ""); ("describe", VStr "d"); ("isCompleted", VBool true)]))
      as (_ & Hin & _).
    destruct Hin as (_ & _ & Hbad); [reflexivity|discriminate|].
    apply Hbad. intros [Ht _]. discriminate Ht.
  - exact (proj1 (put_task_validation st "2" body) eq_refl).
Defined.

(** C2 as the specification words it asks for a [title] of string type, but
    a body whose [title] is the number 1 and whose [describe] is [true] is
    accepted and stored. *)
Lemma put_task_accepts_non_strings :
  let st := (post_tasks (VObj [("title", VStr "a")]) init).1 in
  let body := VObj [("title", VNum (S754_finite false 1 0));
                    ("describe", VBool true); ("isCompleted", VBool false)] in
  Table.has "1" (dataMap st) = true
  ∧ put_task "1" body st
    = ({| dataMap := [("1", body)]; nextId := 2 |}, Json 200 (with_id "1" body))
  ∧ ¬ (∃ s, get_prop "title" body = Some (VStr s)).
Proof. repeat split. by intros [s [=]]. Qed.

(** ** Patching *)

(** What [PATCH /tasks/:id] does on an id of the store: the body replaces
    the stored record whole and is sent back as it came. *)
Lemma patch_task_verbatim st id body :
  Table.has id (dataMap st) = true →
  patch_task id body st
  = ({| dataMap := Table.set id body (dataMap st); nextId := nextId st |}, Json 201 body)
  ∧ Table.get id (Table.set id body (dataMap st)) = Some body.
Proof. intros Hid. unfold patch_task. by rewrite Hid, get_set_eq. Qed.

(** C3: [PATCH /tasks/:id] replaces the stored record by the body, fields of
    the old record are gone, but the response is the body alone: on
    [{describe: "b"}] it has no [id], where [PUT] on the same id answers
    with [{ id, ...updatedTask }]. *)
Theorem patch_response_not_annotated :
  let st := (post_tasks (VObj [("title", VStr "a")]) init).1 in
  let body := VObj [("describe", VStr "b")] in
  Table.get "1" (dataMap st) = Some (VObj [("title", VStr "a"); ("id", VStr "1")])
  ∧ patch_task "1" body st = ({| dataMap := [("1", body)]; nextId := 2 |}, Json 201 body)
  ∧ get_prop "id" body = None.
Proof. repeat split. Qed.

(** C4: the [id] of a response is not always the key.  After [PATCH
    /tasks/1] with [{id: "7"}], the record under key ["1"] is read back by
    [GET /tasks/1] and by [GET /tasks] with [id] ["7"], because the spread
    in [{ id, ...value }] overwrites the key; [PUT] answers with the [id] of
    its body in the same way, and [PATCH] answers with its body, which may
    have no [id] at all. *)
Theorem response_id_differs_from_key :
  let st := run [POST_tasks (VObj [("title", VStr "a")]);
                 PATCH_task "1" (VObj [("id", VStr "7")])] init in
  let put_body := VObj [("title", VStr "c"); ("describe", VStr "d");
                        ("isCompleted", VBool true); ("id", VStr "9")] in
  Table.keys (dataMap st) = ["1"]
  ∧ (get_task "1" st).2 = Json 200 (VObj [("id", VStr "7")])
  ∧ (get_tasks st).2 = Json 200 (VArr [VObj [("id", VStr "7")]] [])
  ∧ (put_task "1" put_body st).2
    = Json 200 (VObj [("id", VStr "9"); ("title", VStr "c"); ("describe", VStr "d");
                      ("isCompleted", VBool true)])
  ∧ (patch_task "1" (VObj []) st).2 = Json 201 (VObj []).
Proof. repeat split. Qed.

(** ** The loop of batch creation *)



(** Records that are in the store when the loop starts are there, unchanged,
    when it ends. *)
Lemma post_loop_preserves tasks st addedTasks errors k v :
  Table.get k (dataMap st) = Some v →
  Table.get k (dataMap (post_loop tasks st addedTasks errors).1) = Some v.
Proof.
  revert st addedTasks errors.
  induction tasks as [|task tasks IH]; intros st addedTasks errors Hk; [done|].
  cbn [post_loop dataMap nextId].
  destruct (set_prop "id" _ task) as [task1|]; [|done].
  destruct (Table.has (pretty (nextId st)) (dataMap st)) eqn:Hid.
  - by apply IH.
  - apply IH. cbn [dataMap]. rewrite get_set_ne; [done|].
    intros <-. apply has_false in Hid. congruence.
Qed.





(** ** Freshness of generated identifiers *)

Lemma ids_fresh_init : ids_fresh init.
Proof. intros k Hk. discriminate Hk. Qed.

Lemma ids_fresh_bump st :
  ids_fresh st →
  ids_fresh {| dataMap := dataMap st; nextId := js_succ (nextId st) |}.
Proof.
  intros Hst k Hk. destruct (Hst k Hk) as (n & -> & Hn). exists n. split; [done|].
  cbn [nextId]. intros [Hlt ->]%js_succ_lt. specialize (Hn Hlt). lia.
Qed.

Lemma ids_fresh_create st v :
  ids_fresh st →
  ids_fresh {| dataMap := Table.set (pretty (nextId st)) v (dataMap st);
               nextId := js_succ (nextId st) |}.
Proof.
  intros Hst k. cbn [dataMap nextId]. rewrite has_set. intros [->|Hk].
  - exists (nextId st). split; [done|]. intros [_ ->]%js_succ_lt. lia.
  - by apply (ids_fresh_bump st Hst k).
Qed.

Lemma ids_fresh_post_loop tasks st addedTasks errors :
  ids_fresh st → ids_fresh (post_loop tasks st addedTasks errors).1.
Proof.
  revert st addedTasks errors.
  induction tasks as [|task tasks IH]; intros st addedTasks errors Hst; [done|].
  cbn [post_loop dataMap nextId].
  destruct (set_prop "id" _ task) as [task1|]; [|by apply ids_fresh_bump].
  destruct (Table.has _ _); apply IH; [by apply ids_fresh_bump|by apply ids_fresh_create].
Qed.

Lemma nextId_unless_post r st :
  is_post r = false → nextId (handle r st).1 = nextId st.
Proof.
  destruct r as [|id|body|id|id body|id body| |id]; simpl; try done; intros _.
  - unfold get_task. by destruct (Table.get id (dataMap st)).
  - unfold delete_task. by destruct (Table.has id (dataMap st)).
  - unfold patch_task. by destruct (Table.has id (dataMap st)).
  - unfold put_task. destruct (Table.has id (dataMap st)); simpl; [|done].
    destruct body; simpl; try done;
      match goal with |- context [if ?c then _ else _] => by destruct c end.
Qed.

Lemma ids_fresh_handle r st : ids_fresh st → ids_fresh (handle r st).1.
Proof.
  intros Hst. destruct (is_post r) eqn:Hr.
  - destruct r as [| |body| | | | |]; try done. cbn [handle]. unfold post_tasks.
    destruct body as [| | | |elems props|]; cbn [set_prop fst dataMap nextId];
      try (by apply ids_fresh_create).
    + by apply ids_fresh_bump.
    + pose proof (ids_fresh_post_loop elems st [] [] Hst) as Hloop.
      destruct (post_loop elems st [] []) as [st1 [[addedTasks errors]|]]; [|done].
      by case_bool_decide.
  - intros k Hk. apply keys_only_grow_by_post in Hk; [|done].
    rewrite nextId_unless_post by done. by apply Hst.
Qed.

Lemma ids_fresh_run reqs st : ids_fresh st → ids_fresh (run reqs st).
Proof.
  revert st. induction reqs as [|r reqs IH]; intros st Hst; [done|].
  simpl. by apply IH, ids_fresh_handle.
Qed.

Lemma reachable_ids_fresh st : reachable st → ids_fresh st.
Proof. intros [reqs <-]. apply ids_fresh_run, ids_fresh_init. Qed.

(** Below [2^53] the loop meets no taken identifier. *)
Lemma post_loop_no_collision tasks st addedTasks errors st' addedTasks' errors' :
  ids_fresh st →
  nextId st + N.of_nat (length tasks) ≤ max_exact →
  post_loop tasks st addedTasks errors = (st', Some (addedTasks', errors')) →
  errors' = errors.
Proof.
  revert st addedTasks errors.
  induction tasks as [|task tasks IH]; intros st addedTasks errors Hst Hlen.
  { by intros [= _ _ <-]. }
  cbn [post_loop dataMap nextId]. cbn [length] in Hlen.
  destruct (set_prop "id" _ task) as [task1|]; [|done].
  destruct (Table.has (pretty (nextId st)) (dataMap st)) eqn:Hid.
  { destruct (Hst _ Hid) as (n & Heq & Hn). apply (inj pretty) in Heq. lia. }
  apply IH.
  - by apply ids_fresh_create.
  - cbn [nextId]. rewrite js_succ_below by lia. lia.
Qed.

(** C5 (as amended): in every reachable state whose counter is far enough
    from [2^53] for the batch, that is [nextId] plus the length of the batch
    is at most [2^53], no generated identifier is a key of the store: the
    loop ends with an empty list of errors and [POST /tasks] does not answer
    400. *)
Theorem no_collision_below_saturation st tasks props :
  reachable st →
  nextId st + N.of_nat (length tasks) ≤ max_exact →
  (∀ st' addedTasks errors,
     post_loop tasks st [] [] = (st', Some (addedTasks, errors)) → errors = [])
  ∧ (∀ body, (post_tasks (VArr tasks props) st).2 ≠ Json 400 body).
Proof.
  intros Hst%reachable_ids_fresh Hlen.
  assert (Hloop : ∀ st' addedTasks errors,
    post_loop tasks st [] [] = (st', Some (addedTasks, errors)) → errors = []).
  { intros st' addedTasks errors. by apply post_loop_no_collision. }
  split; [done|]. intros body. unfold post_tasks.
  destruct (post_loop tasks st [] []) as [st' [[addedTasks errors]|]]; [|done].
  by rewrite (Hloop st' addedTasks errors eq_refl).
Qed.

Lemma no_collision_below_saturation_witness :
  reachable init
  ∧ nextId init + N.of_nat (length [VObj []; VObj []]) ≤ max_exact
  ∧ ∀ body, (post_tasks (VArr [VObj []; VObj []] []) init).2 ≠ Json 400 body.
Proof.
  assert (Hinit : reachable init) by (exists []; reflexivity).
  assert (Hlen : nextId init + N.of_nat (length [VObj []; VObj []]) ≤ max_exact).
  { vm_compute. discriminate. }
  split; [exact Hinit|]. split; [exact Hlen|].
  exact (proj2 (no_collision_below_saturation init [VObj []; VObj []] [] Hinit Hlen)).
Defined.

(** ** The counter at [2^53] *)

Lemma churn_run count n :
  n + N.of_nat count ≤ max_exact →
  run (churn count n) {| dataMap := []; nextId := n |}
  = {| dataMap := []; nextId := n + N.of_nat count |}.
Proof.
  revert n. induction count as [|count IH]; intros n Hn.
  { cbn [churn run]. f_equal. lia. }
  cbn [churn run handle]. unfold post_tasks. cbn [set_prop update_prop fst dataMap nextId].
  unfold delete_task. cbn [Table.set dataMap nextId]. unfold Table.has.
  cbn [Table.get Table.delete]. rewrite !decide_True by done. cbn [fst].
  rewrite js_succ_below by lia. rewrite IH by lia. f_equal. lia.
Qed.

(** Creating and deleting [2^53 - 1] tasks takes the server from its
    initial state to the saturated one. *)
Lemma saturated_reachable : reachable saturated.
Proof.
  exists (churn (N.to_nat (max_exact - 1)) 1). unfold init.
  rewrite churn_run; rewrite N2Nat.id; [reflexivity|].
  vm_compute. discriminate.
Qed.

(** C5 as the specification words it holds that the 400 response is never
    produced.  Once the counter has reached [2^53], where it sticks, both
    records of a batch of two get the identifier ["9007199254740992"]: the
    first is stored and the second collides with it. *)
Lemma collision_at_saturation :
  reachable saturated
  ∧ post_tasks (VArr [VObj []; VObj []] []) saturated
    = ({| dataMap := [("9007199254740992", VObj [("id", VStr "9007199254740992")])];
          nextId := max_exact |},
       Json 400 (VObj [("errors", VArr [collision "9007199254740992"] [])])).
Proof. split; [exact saturated_reachable|]. vm_compute. reflexivity. Qed.

(** A batch that collides in a reachable state: the first record is
    committed although the response is 400. *)
Lemma batch_collision_commits_at_saturation :
  reachable saturated
  ∧ (post_tasks (VArr [VObj []; VObj []] []) saturated).2
    = Json 400 (VObj [("errors", VArr [collision "9007199254740992"] [])])
  ∧ dataMap (post_tasks (VArr [VObj []; VObj []] []) saturated).1 ≠ dataMap saturated.
Proof. split; [exact saturated_reachable|]. split; [by vm_compute|]. by vm_compute. Qed.

(** ** The sequence of generated identifiers *)








(** [loop_ids] counts the increments of the loop. *)
Lemma post_loop_nextId tasks st addedTasks errors :
  nextId (post_loop tasks st addedTasks errors).1
  = Nat.iter (length (loop_ids tasks (nextId st))) js_succ (nextId st).
Proof.
  revert st addedTasks errors.
  induction tasks as [|task tasks IH]; intros st addedTasks errors; [done|].
  destruct task; cbn [post_loop loop_ids set_prop dataMap nextId fst length];
    [done|..]; rewrite Nat.iter_succ_r; destruct (Table.has _ _); by rewrite IH.
Qed.

(** The generated values are where the new keys come from. *)
Lemma post_loop_keys tasks st addedTasks errors k :
  Table.has k (dataMap (post_loop tasks st addedTasks errors).1) = true →
  Table.has k (dataMap st) = true ∨ k ∈ pretty <$> loop_ids tasks (nextId st).
Proof.
  revert st addedTasks errors.
  induction tasks as [|task tasks IH]; intros st addedTasks errors; [by left|].
  destruct task; cbn [post_loop loop_ids set_prop dataMap nextId fst]; [by left|..];
    (destruct (Table.has (pretty (nextId st)) (dataMap st));
     intros [Hk|Hk]%IH; cbn [dataMap nextId] in *; rewrite fmap_cons, elem_of_cons;
     [by left|by right; right| |by right; right];
     apply has_set in Hk as [->|Hk]; [by right; left|by left]).
Qed.

Lemma generated_keys r st k :
  Table.has k (dataMap (handle r st).1) = true →
  Table.has k (dataMap st) = true ∨ k ∈ pretty <$> generated r st.
Proof.
  destruct (is_post r) eqn:Hr; [|left; by eapply keys_only_grow_by_post].
  destruct r as [| |body| | | | |]; try done. cbn [handle generated]. unfold post_tasks.
  destruct body as [| | | |elems props|]; cbn [set_prop fst dataMap nextId];
    try (rewrite has_set; intros [->|?]; [right; apply list_elem_of_singleton|left]; done).
  - by left.
  - pose proof (post_loop_keys elems st [] [] k) as Hloop.
    destruct (post_loop elems st [] []) as [st1 [[addedTasks errors]|]]; [|done].
    by case_bool_decide.
Qed.




(** * Further properties of the handlers *)

(** ** More on tables *)
Section table_order.
Context {V : Type}.
Implicit Types (k : string) (v : V) (m : list (string * V)).

Lemma keys_set_present k v m :
  Table.has k m = true → Table.keys (Table.set k v m) = Table.keys m.
Proof.
  unfold Table.keys, Table.has.
  induction m as [|[k' v'] m IH]; simpl; [done|].
  case_decide; subst; simpl; [done|]. intros Hk. f_equal. by apply IH.
Qed.

Lemma keys_set_absent k v m :
  Table.has k m = false → Table.keys (Table.set k v m) = Table.keys m ++ [k].
Proof.
  unfold Table.keys, Table.has.
  induction m as [|[k' v'] m IH]; simpl; [done|].
  case_decide; subst; simpl; [done|]. intros Hk. f_equal. by apply IH.
Qed.

Lemma delete_filter k m : Table.delete k m = filter (λ kv, kv.1 ≠ k) m.
Proof.
  induction m as [|[k' v'] m IH]; [done|].
  cbn [Table.delete]. rewrite filter_cons. cbn [fst].
  destruct (decide (k' = k)), (decide (k' ≠ k)); try done. by f_equal.
Qed.

Lemma keys_delete k m : Table.keys (Table.delete k m) = filter (λ k', k' ≠ k) (Table.keys m).
Proof.
  unfold Table.keys. induction m as [|[k' v'] m IH]; [done|].
  cbn [Table.delete]. rewrite fmap_cons, filter_cons. cbn [fst].
  destruct (decide (k' = k)), (decide (k' ≠ k)); try done.
  rewrite fmap_cons. cbn [fst]. by f_equal.
Qed.

Lemma delete_absent k m : Table.has k m = false → Table.delete k m = m.
Proof.
  unfold Table.has.
  induction m as [|[k' v'] m IH]; simpl; [done|].
  case_decide; [done|]. intros Hk. by rewrite IH.
Qed.

Lemma set_set k v v' m : Table.set k v (Table.set k v' m) = Table.set k v m.
Proof.
  induction m as [|[k' w] m IH]; simpl.
  - by rewrite decide_True.
  - case_decide; simpl; [by rewrite decide_True|].
    rewrite decide_False by done. by rewrite IH.
Qed.

Lemma NoDup_keys_set k v m : NoDup (Table.keys m) → NoDup (Table.keys (Table.set k v m)).
Proof.
  intros Hm. destruct (Table.has k m) eqn:Hk.
  - by rewrite keys_set_present.
  - rewrite keys_set_absent by done. apply NoDup_app. split; [done|].
    split; [|apply NoDup_singleton].
    intros k' Hk' ->%list_elem_of_singleton. apply has_keys in Hk'. congruence.
Qed.

Lemma NoDup_keys_delete k m : NoDup (Table.keys m) → NoDup (Table.keys (Table.delete k m)).
Proof. intros Hm. rewrite keys_delete. by apply NoDup_filter. Qed.

(** With one entry per key, the entry at any position is the one [get]
    finds. *)
Lemma get_lookup i k v m :
  NoDup (Table.keys m) → m !! i = Some (k, v) → Table.get k m = Some v.
Proof.
  unfold Table.keys. revert i.
  induction m as [|[k' v'] m IH]; intros i Hm Hi; [done|].
  simpl in *. apply NoDup_cons in Hm as [Hk' Hm].
  destruct i as [|i]; simpl in Hi.
  - injection Hi as -> ->. by rewrite decide_True.
  - rewrite decide_False; [by eapply IH|].
    intros ->. apply Hk'. apply list_elem_of_fmap. exists (k, v).
    split; [done|]. by eapply list_elem_of_lookup_2.
Qed.
End table_order.

(** ** Safe requests and requests that create nothing *)

(** [GET /tasks], [GET /tasks/:id] and the two [OPTIONS] routes are safe:
    however many of them are served, in whatever order and on whatever ids,
    the store and the counter are what they were. *)
Theorem safe_requests_keep_state reqs st :
  Forall (λ r, is_safe r = true) reqs → run reqs st = st.
Proof.
  intros Hreqs. induction Hreqs as [|r reqs Hr _ IH]; [done|].
  cbn [run]. replace (handle r st).1 with st; [done|].
  destruct r as [|id| | | | | |]; try done.
  cbn [handle]. unfold get_task. by destruct (Table.get id (dataMap st)).
Qed.

Lemma safe_requests_keep_state_witness :
  let st := (post_tasks (VObj [("title", VStr "a")]) init).1 in
  run [GET_tasks; GET_task "1"; GET_task "2"; OPTIONS_tasks; OPTIONS_task "1"] st = st
  ∧ nextId st = 2.
Proof.
  intros st. split; [|reflexivity].
  apply safe_requests_keep_state. repeat constructor.
Defined.

(** [PUT], [PATCH] and [DELETE] are no way to create a record: along a run
    without [POST] the counter does not move and every key of the store at
    the end was a key at the start. *)
Theorem only_post_creates reqs st :
  Forall (λ r, is_post r = false) reqs →
  nextId (run reqs st) = nextId st
  ∧ ∀ k, Table.has k (dataMap (run reqs st)) = true → Table.has k (dataMap st) = true.
Proof.
  intros Hreqs. split.
  - revert st. induction Hreqs as [|r reqs Hr _ IH]; intros st; [done|].
    cbn [run]. by rewrite IH, nextId_unless_post.
  - intros k Hk. destruct (Table.has k (dataMap st)) eqn:Hbefore; [done|].
    apply has_false in Hbefore.
    apply (absent_stays_absent reqs) in Hbefore; [|done].
    apply has_false in Hbefore. congruence.
Qed.

Lemma only_post_creates_witness :
  let body := VObj [("title", VStr "c"); ("describe", VStr "d"); ("isCompleted", VBool true)] in
  let st := run [PUT_task "5" body; PATCH_task "5" body; DELETE_task "5"] init in
  nextId st = 1 ∧ Table.has "5" (dataMap st) = false.
Proof.
  intros body st.
  destruct (only_post_creates [PUT_task "5" body; PATCH_task "5" body; DELETE_task "5"] init)
    as [Hnext Hkeys]; [repeat constructor|].
  split; [exact Hnext|].
  destruct (Table.has "5" (dataMap st)) eqn:Hk; [|reflexivity].
  apply Hkeys in Hk. discriminate Hk.
Defined.

(** ** The counter and the keys in reachable states *)

Lemma iter_js_succ_ge count n : n ≤ Nat.iter count js_succ n.
Proof.
  induction count as [|count IH]; simpl; [done|].
  etrans; [exact IH|]. apply js_succ_mono.
Qed.

Lemma nextId_handle_ge r st : nextId st ≤ nextId (handle r st).1.
Proof.
  destruct (is_post r) eqn:Hr; [|by rewrite nextId_unless_post].
  destruct r as [| |body| | | | |]; try done. cbn [handle]. unfold post_tasks.
  destruct body as [| | | |elems props|]; cbn [set_prop fst dataMap nextId];
    try apply js_succ_mono.
  pose proof (post_loop_nextId elems st [] []) as Hloop.
  destruct (post_loop elems st [] []) as [st1 [[addedTasks errors]|]];
    [case_bool_decide|]; cbn [fst] in *; rewrite Hloop; apply iter_js_succ_ge.
Qed.

(** [nextId] never decreases, whatever is requested. *)
Theorem counter_never_decreases reqs st : nextId st ≤ nextId (run reqs st).
Proof.
  revert st. induction reqs as [|r reqs IH]; intros st; [done|].
  cbn [run]. etrans; [apply (nextId_handle_ge r)|apply IH].
Qed.

Lemma js_succ_range n : 1 ≤ n ≤ max_exact → 1 ≤ js_succ n ≤ max_exact.
Proof. unfold js_succ. destruct (N.ltb_spec n max_exact); lia. Qed.

Lemma store_ok_init : store_ok init.
Proof.
  split; [by vm_compute|]. split; [constructor|]. intros k Hk. discriminate Hk.
Qed.

Lemma store_ok_bump st :
  store_ok st → store_ok {| dataMap := dataMap st; nextId := js_succ (nextId st) |}.
Proof.
  intros (Hrange & Hdup & Hkeys). split; [by apply js_succ_range|]. split; [done|].
  intros k Hk. destruct (Hkeys k Hk) as (n & -> & Hn). exists n. split; [done|].
  cbn [nextId]. pose proof (js_succ_mono (nextId st)). lia.
Qed.

Lemma store_ok_create st v :
  store_ok st →
  store_ok {| dataMap := Table.set (pretty (nextId st)) v (dataMap st);
              nextId := js_succ (nextId st) |}.
Proof.
  intros Hst. pose proof (store_ok_bump st Hst) as (Hrange & Hdup & Hkeys).
  split; [done|]. split; [by apply NoDup_keys_set|].
  intros k. cbn [dataMap nextId]. rewrite has_set. intros [->|Hk]; [|by apply Hkeys].
  exists (nextId st). split; [done|].
  destruct Hst as (? & _). pose proof (js_succ_mono (nextId st)). lia.
Qed.

Lemma store_ok_post_loop tasks st addedTasks errors :
  store_ok st → store_ok (post_loop tasks st addedTasks errors).1.
Proof.
  revert st addedTasks errors.
  induction tasks as [|task tasks IH]; intros st addedTasks errors Hst; [done|].
  cbn [post_loop dataMap nextId].
  destruct (set_prop "id" _ task) as [task1|]; [|by apply store_ok_bump].
  destruct (Table.has _ _); apply IH; [by apply store_ok_bump|by apply store_ok_create].
Qed.

Lemma store_ok_handle r st : store_ok st → store_ok (handle r st).1.
Proof.
  intros Hst. destruct r as [|id|body|id|id body|id body| |id]; cbn [handle]; try done.
  - unfold get_task. by destruct (Table.get id (dataMap st)).
  - unfold post_tasks.
    destruct body as [| | | |elems props|]; cbn [set_prop fst dataMap nextId];
      try (by apply store_ok_create); [by apply store_ok_bump|].
    pose proof (store_ok_post_loop elems st [] [] Hst) as Hloop.
    destruct (post_loop elems st [] []) as [st1 [[addedTasks errors]|]]; [|done].
    by case_bool_decide.
  - unfold delete_task. destruct (Table.has id (dataMap st)) eqn:Hid; [|done].
    destruct Hst as (Hrange & Hdup & Hkeys). split; [done|].
    split; [by apply NoDup_keys_delete|].
    intros k. cbn [fst dataMap nextId]. rewrite has_delete. intros [_ Hk]. by apply Hkeys.
  - unfold patch_task. destruct (Table.has id (dataMap st)) eqn:Hid; [|done].
    destruct Hst as (Hrange & Hdup & Hkeys). split; [done|].
    split; [by apply NoDup_keys_set|].
    intros k. cbn [fst dataMap nextId]. rewrite has_set. intros [->|Hk]; by apply Hkeys.
  - unfold put_task. destruct (Table.has id (dataMap st)) eqn:Hid; cbn [negb]; [|done].
    destruct body; try done;
      match goal with |- context [if ?c then _ else _] => destruct c end; try done;
      destruct Hst as (Hrange & Hdup & Hkeys); (split; [done|]);
      (split; [by apply NoDup_keys_set|]);
      intros k; cbn [fst dataMap nextId]; rewrite has_set; intros [->|Hk]; by apply Hkeys.
Qed.

Lemma store_ok_run reqs st : store_ok st → store_ok (run reqs st).
Proof.
  revert st. induction reqs as [|r reqs IH]; intros st Hst; [done|].
  cbn [run]. by apply IH, store_ok_handle.
Qed.

Lemma reachable_store_ok st : reachable st → store_ok st.
Proof. intros [reqs <-]. apply store_ok_run, store_ok_init. Qed.

(** In every reachable state [nextId] is an integer from 1 to [2^53]: the
    counter never leaves the range in which a JavaScript number counts
    exactly. *)
Theorem counter_in_exact_range st : reachable st → 1 ≤ nextId st ≤ max_exact.
Proof. by intros (? & _)%reachable_store_ok. Qed.

Lemma counter_in_exact_range_witness :
  let st := run [POST_tasks (VArr [VObj []; VNull; VObj []] []); POST_tasks (VObj [])] init in
  nextId st = 4 ∧ 1 ≤ nextId st ≤ max_exact.
Proof.
  intros st. split; [reflexivity|].
  apply counter_in_exact_range. eexists. reflexivity.
Defined.

(** In every reachable state every key of the store is the decimal string
    of a number from 1 to [nextId], so a request on any other id ("0",
    "01", "abc", an id not yet generated) finds nothing: [GET], [DELETE],
    [PATCH] and [PUT] answer 404 and leave the state as it is. *)
Theorem unissued_ids_are_not_found st id :
  reachable st →
  (∀ n, 1 ≤ n ≤ nextId st → id ≠ pretty n) →
  Table.has id (dataMap st) = false
  ∧ get_task id st = (st, not_found "Item não encontrado")
  ∧ delete_task id st = (st, not_found "Item não encontrado")
  ∧ (∀ body, patch_task id body st = (st, not_found "Item não encontrado"))
  ∧ (∀ body, put_task id body st = (st, not_found "Tarefa não encontrada")).
Proof.
  intros (_ & _ & Hkeys)%reachable_store_ok Hid.
  assert (Hno : Table.has id (dataMap st) = false).
  { destruct (Table.has id (dataMap st)) eqn:Hhas; [|done].
    destruct (Hkeys id Hhas) as (n & -> & Hn). by destruct (Hid n Hn). }
  split; [done|]. unfold get_task, delete_task, patch_task, put_task. rewrite Hno.
  apply has_false in Hno. by rewrite Hno.
Qed.

Lemma unissued_ids_are_not_found_witness :
  let st := run [POST_tasks (VObj [])] init in
  get_task "01" st = (st, not_found "Item não encontrado")
  ∧ delete_task "01" st = (st, not_found "Item não encontrado").
Proof.
  intros st.
  destruct (unissued_ids_are_not_found st "01") as (_ & Hget & Hdel & _).
  - eexists. reflexivity.
  - intros n Hn. assert (Hnext : nextId st = 2) by reflexivity. rewrite Hnext in Hn.
    assert (n = 1 ∨ n = 2) as [-> | ->] by lia; discriminate.
  - split; [exact Hget|exact Hdel].
Defined.

(** ** What a read returns *)

(** The spread [{ id, ...v }] over an object with one entry per key. *)
Lemma get_spread k (base ps : list (string * value)) :
  NoDup (Table.keys ps) →
  Table.get k (foldl (λ acc kv, Table.set kv.1 kv.2 acc) base ps)
  = match Table.get k ps with Some v => Some v | None => Table.get k base end.
Proof.
  unfold Table.keys. revert base.
  induction ps as [|[k1 v1] ps IH]; intros base Hps; [done|].
  rewrite fmap_cons in Hps. apply NoDup_cons in Hps as [Hk1 Hps].
  cbn [foldl fst snd Table.get]. rewrite IH by done.
  destruct (decide (k1 = k)) as [->|Hne].
  - assert (Table.get k ps = None) as ->; [|apply get_set_eq].
    apply has_false. destruct (Table.has k ps) eqn:Hk; [|done].
    by apply has_keys in Hk.
  - by rewrite get_set_ne.
Qed.

(** [GET /tasks/:id] on a stored object answers 200 with an object that has
    every property of the record, with the value the record has, and no
    other property but [id]: the key, when the record has no [id] of its
    own. *)
Theorem get_task_annotation st id ps :
  Table.get id (dataMap st) = Some (VObj ps) →
  NoDup (Table.keys ps) →
  ∃ sent,
    get_task id st = (st, Json 200 (VObj sent))
    ∧ ∀ k, Table.get k sent
           = match Table.get k ps with
             | Some v => Some v
             | None => if decide (k = "id") then Some (VStr id) else None
             end.
Proof.
  intros Hget Hps. unfold get_task. rewrite Hget. eexists. split; [done|].
  intros k. cbn [own_props]. rewrite get_spread by done.
  destruct (Table.get k ps); [done|]. cbn [Table.get].
  destruct (decide ("id" = k)), (decide (k = "id")); congruence.
Qed.

Lemma get_task_annotation_witness :
  let st := run [POST_tasks (VObj []); PATCH_task "1" (VObj [("title", VStr "b")])] init in
  ∃ sent,
    get_task "1" st = (st, Json 200 (VObj sent))
    ∧ Table.get "title" sent = Some (VStr "b")
    ∧ Table.get "id" sent = Some (VStr "1")
    ∧ Table.get "describe" sent = None.
Proof.
  intros st.
  destruct (get_task_annotation st "1" [("title", VStr "b")]) as (sent & Hget & Hsent).
  - reflexivity.
  - apply (bool_decide_unpack _). by vm_compute.
  - exists sent. split; [exact Hget|]. split; [|split]; by rewrite Hsent.
Defined.

(** [GET /tasks] in a reachable state answers with one element per record,
    in the order of the store, and the element for a key is the body that
    [GET /tasks/:id] answers for that key. *)
Theorem list_agrees_with_get st :
  reachable st →
  ∃ sent,
    get_tasks st = (st, Json 200 (VArr sent []))
    ∧ length sent = length (dataMap st)
    ∧ ∀ i id, Table.keys (dataMap st) !! i = Some id →
        ∃ one, sent !! i = Some one ∧ get_task id st = (st, Json 200 one).
Proof.
  intros (_ & Hdup & _)%reachable_store_ok. unfold get_tasks. eexists.
  split; [done|]. split; [by rewrite length_map|].
  intros i id Hi. unfold Table.keys in Hi. rewrite list_lookup_fmap in Hi.
  destruct (dataMap st !! i) as [[k v]|] eqn:Hentry; [|done].
  injection Hi as ->. exists (with_id id v). split.
  - change (map ?f ?l) with (f <$> l). by rewrite list_lookup_fmap, Hentry.
  - unfold get_task. by rewrite (get_lookup i id v).
Qed.

Lemma list_agrees_with_get_witness :
  let st := run [POST_tasks (VArr [VObj [("title", VStr "a")]; VObj [("title", VStr "b")]] [])] init in
  ∃ sent one,
    get_tasks st = (st, Json 200 (VArr sent []))
    ∧ sent !! 1%nat = Some one
    ∧ get_task "2" st = (st, Json 200 one).
Proof.
  intros st.
  destruct (list_agrees_with_get st) as (sent & Hlist & _ & Heach).
  - eexists. reflexivity.
  - destruct (Heach 1%nat "2" eq_refl) as (one & Hone & Hget).
    exists sent, one. split; [exact Hlist|]. split; [exact Hone|exact Hget].
Defined.

(** ** Writes and the reads that follow *)

Lemma strip_value_id_object ps :
  ∃ ps', strip_value_id (VObj ps) = VObj ps' ∧ Table.keys ps' = Table.keys ps.
Proof.
  unfold strip_value_id. cbn [get_prop].
  destruct (Table.get "value" ps) as [inner|] eqn:Hv; [|by eexists].
  destruct (truthy inner && truthy_opt (get_prop "id" inner)); [|by eexists].
  eexists. split; [done|]. apply keys_set_present, has_true. eauto.
Qed.

(** Round trip of a creation: after [POST /tasks] with an object whose keys
    are distinct, [GET /tasks/:id] on the generated id answers 200 with an
    object that has the same properties, with the same values, as the
    record that the [POST] answered with, and its [id] is the generated
    id. *)
Theorem post_then_get st ps :
  NoDup (Table.keys ps) →
  let id := pretty (nextId st) in
  ∃ st' created read,
    post_tasks (VObj ps) st = (st', Json 201 (VObj created))
    ∧ get_task id st' = (st', Json 200 (VObj read))
    ∧ (∀ k, Table.get k read = Table.get k created)
    ∧ Table.get "id" read = Some (VStr id).
Proof.
  intros Hps id. unfold post_tasks. cbn [set_prop update_prop dataMap nextId].
  destruct (strip_value_id_object (Table.set "id" (VStr id) ps)) as (created & Hstrip & Hkeys).
  fold id. rewrite Hstrip.
  assert (Hid : Table.get "id" created = Some (VStr id)).
  { change (get_prop "id" (VObj created) = Some (VStr id)). rewrite <-Hstrip.
    rewrite strip_value_id_other by done. apply get_set_eq. }
  assert (Hdup : NoDup (Table.keys created)).
  { rewrite Hkeys. by apply NoDup_keys_set. }
  eexists _, created, _. split; [done|]. split.
  { unfold get_task. cbn [dataMap]. rewrite get_set_eq. done. }
  assert (Hsame : ∀ k,
    Table.get k (foldl (λ acc kv, Table.set kv.1 kv.2 acc) [("id", VStr id)] created)
    = Table.get k created).
  { intros k. rewrite get_spread by done.
    destruct (Table.get k created) eqn:Hk; [done|]. cbn [Table.get].
    case_decide; [|done]. subst k. congruence. }
  cbn [own_props]. split; [done|]. by rewrite Hsame.
Qed.

Lemma post_then_get_witness :
  ∃ st' created read,
    post_tasks (VObj [("title", VStr "a"); ("value", VObj [("id", VStr "x")])]) init
    = (st', Json 201 (VObj created))
    ∧ get_task "1" st' = (st', Json 200 (VObj read))
    ∧ (∀ k, Table.get k read = Table.get k created)
    ∧ Table.get "id" read = Some (VStr "1").
Proof.
  apply (post_then_get init [("title", VStr "a"); ("value", VObj [("id", VStr "x")])]).
  apply (bool_decide_unpack _). by vm_compute.
Defined.

(** What [PUT] and [PATCH] store is what the next [GET] reads: after either
    has replaced the record of [id] by [body], [GET /tasks/:id] answers 200
    with [{ id, ...body }], which is also the very response of the [PUT]. *)
Theorem get_after_replacement st id body :
  Table.has id (dataMap st) = true →
  get_task id (patch_task id body st).1
  = ((patch_task id body st).1, Json 200 (with_id id body))
  ∧ ∀ st' sent, put_task id body st = (st', Json 200 sent) →
      get_task id st' = (st', Json 200 sent).
Proof.
  intros Hid. split.
  - unfold patch_task. rewrite Hid. unfold get_task. cbn [fst dataMap].
    by rewrite get_set_eq.
  - intros st' sent. unfold put_task. rewrite Hid. cbn [negb].
    destruct body; try done;
      match goal with |- context [if ?c then _ else _] => destruct c end; try done;
      intros [= <- <-]; unfold get_task; cbn [dataMap]; by rewrite get_set_eq.
Qed.

Lemma get_after_replacement_witness :
  let st := run [POST_tasks (VObj [("title", VStr "a")])] init in
  let body := VObj [("title", VStr "c"); ("describe", VStr "d"); ("isCompleted", VBool true)] in
  (get_task "1" (patch_task "1" body st).1).2 = Json 200 (with_id "1" body)
  ∧ (get_task "1" (put_task "1" body st).1).2 = Json 200 (with_id "1" body).
Proof.
  intros st body.
  destruct (get_after_replacement st "1" body eq_refl) as [Hpatch Hput]. split.
  - exact (f_equal snd Hpatch).
  - exact (f_equal snd (Hput (put_task "1" body st).1 (with_id "1" body) eq_refl)).
Defined.

(** ** What a write leaves alone *)

(** [PUT] and [PATCH] replace in place, whatever the id and the body: the
    keys of the store and their order are as before, so is [nextId], and
    the record of every other key is untouched. *)
Theorem replacement_in_place st id body :
  let after_patch := (patch_task id body st).1 in
  let after_put := (put_task id body st).1 in
  (Table.keys (dataMap after_patch) = Table.keys (dataMap st)
   ∧ nextId after_patch = nextId st
   ∧ ∀ k, k ≠ id → Table.get k (dataMap after_patch) = Table.get k (dataMap st))
  ∧ (Table.keys (dataMap after_put) = Table.keys (dataMap st)
     ∧ nextId after_put = nextId st
     ∧ ∀ k, k ≠ id → Table.get k (dataMap after_put) = Table.get k (dataMap st)).
Proof.
  assert (Hset : ∀ v, Table.has id (dataMap st) = true →
    let st' := {| dataMap := Table.set id v (dataMap st); nextId := nextId st |} in
    Table.keys (dataMap st') = Table.keys (dataMap st)
    ∧ nextId st' = nextId st
    ∧ ∀ k, k ≠ id → Table.get k (dataMap st') = Table.get k (dataMap st)).
  { intros v Hid. cbn. split; [by apply keys_set_present|]. split; [done|].
    intros k Hk. by apply get_set_ne. }
  cbv zeta. unfold patch_task, put_task.
  destruct (Table.has id (dataMap st)) eqn:Hid; cbn [negb fst]; [|done].
  split; [by apply Hset|].
  destruct body; try done;
    match goal with |- context [if ?c then _ else _] => destruct c end; try done;
    by apply Hset.
Qed.

Lemma replacement_in_place_witness :
  let st := run [POST_tasks (VArr [VObj []; VObj []] [])] init in
  let st' := (patch_task "1" (VObj [("title", VStr "b")]) st).1 in
  Table.keys (dataMap st') = ["1"; "2"]
  ∧ Table.get "2" (dataMap st') = Some (VObj [("id", VStr "2")]).
Proof.
  intros st st'.
  destruct (replacement_in_place st "1" (VObj [("title", VStr "b")]))
    as [(Hkeys & _ & Hothers) _].
  split; [exact Hkeys|]. apply (Hothers "2"). discriminate.
Defined.

(** [DELETE /tasks/:id] takes the record of [id] out of the store and
    nothing else: the other entries keep their order and their records,
    [nextId] is as before, and [id] is no key afterwards. *)
Theorem delete_removes_one st id :
  let st' := (delete_task id st).1 in
  dataMap st' = filter (λ kv, kv.1 ≠ id) (dataMap st)
  ∧ nextId st' = nextId st
  ∧ Table.get id (dataMap st') = None
  ∧ ∀ k, k ≠ id → Table.get k (dataMap st') = Table.get k (dataMap st).
Proof.
  cbv zeta. unfold delete_task.
  destruct (Table.has id (dataMap st)) eqn:Hid; cbn [fst dataMap nextId].
  - split; [apply delete_filter|]. split; [done|]. split; [apply get_delete_eq|].
    intros k Hk. by apply get_delete_ne.
  - split; [by rewrite <-delete_filter, delete_absent|]. split; [done|].
    split; [by apply has_false|done].
Qed.

Lemma delete_removes_one_witness :
  let st := run [POST_tasks (VArr [VObj []; VObj []; VObj []] [])] init in
  let st' := (delete_task "2" st).1 in
  Table.keys (dataMap st') = ["1"; "3"]
  ∧ Table.get "3" (dataMap st') = Some (VObj [("id", VStr "3")]).
Proof.
  intros st st'.
  destruct (delete_removes_one st "2") as (Hmap & _ & _ & Hothers).
  split; [exact (f_equal Table.keys Hmap)|]. apply (Hothers "3"). discriminate.
Defined.

Lemma put_task_steps id body st :
  put_task id body st
  = if negb (Table.has id (dataMap st)) then (st, not_found "Tarefa não encontrada")
    else if is_null body then (st, TypeError)
    else if put_refuses body
      then (st, Json 400 (VObj [("error", VStr "Dados inválidos ou campos obrigatórios ausentes")]))
      else ({| dataMap := Table.set id body (dataMap st); nextId := nextId st |},
            Json 200 (with_id id body)).
Proof. by destruct body. Qed.

(** [PUT] and [PATCH] are idempotent: served a second time with the same id
    and body, each leaves the state the first left and answers as the first
    did.  [DELETE] is idempotent on the state, and its second answer is
    404. *)
Theorem repeated_writes st id body :
  put_task id body (put_task id body st).1 = put_task id body st
  ∧ patch_task id body (patch_task id body st).1 = patch_task id body st
  ∧ delete_task id (delete_task id st).1
    = ((delete_task id st).1, not_found "Item não encontrado").
Proof.
  assert (Hagain : ∀ v, Table.has id (Table.set id v (dataMap st)) = true).
  { intros v. apply has_set. by left. }
  split; [|split].
  - rewrite !put_task_steps.
    destruct (Table.has id (dataMap st)) eqn:Hid; cbn [negb fst]; [|by rewrite Hid].
    destruct (is_null body); cbn [fst]; [by rewrite Hid|].
    destruct (put_refuses body); cbn [fst dataMap nextId]; [by rewrite Hid|].
    by rewrite Hagain, set_set.
  - unfold patch_task at 2 3. destruct (Table.has id (dataMap st)) eqn:Hid; cbn [fst].
    + unfold patch_task. cbn [dataMap nextId]. by rewrite Hagain, set_set.
    + unfold patch_task. by rewrite Hid.
  - assert (Hgone : Table.has id (dataMap (delete_task id st).1) = false).
    { apply has_false. unfold delete_task.
      destruct (Table.has id (dataMap st)) eqn:Hid; cbn [fst dataMap];
        [apply get_delete_eq|by apply has_false]. }
    unfold delete_task at 1. by rewrite Hgone.
Qed.

(** ** Batches *)

Lemma post_loop_app pre rest st addedTasks errors :
  post_loop (pre ++ rest) st addedTasks errors
  = match post_loop pre st addedTasks errors with
    | (st', Some (addedTasks', errors')) => post_loop rest st' addedTasks' errors'
    | (st', None) => (st', None)
    end.
Proof.
  revert st addedTasks errors.
  induction pre as [|task pre IH]; intros st addedTasks errors; [done|].
  cbn [app post_loop]. destruct (set_prop "id" _ task); [|done].
  destruct (Table.has _ _); apply IH.
Qed.

Lemma post_loop_without_null tasks st addedTasks errors :
  Forall (λ task, task ≠ VNull) tasks →
  ∃ addedTasks' errors',
    (post_loop tasks st addedTasks errors).2 = Some (addedTasks', errors').
Proof.
  intros Htasks. revert st addedTasks errors.
  induction Htasks as [|task tasks Htask _ IH]; intros st addedTasks errors.
  { by eexists _, _. }
  cbn [post_loop]. destruct task; try done; cbn [set_prop];
    destruct (Table.has _ _); apply IH.
Qed.

(** A [null] element ends a batch with an uncaught [TypeError]: the
    elements before it have been served exactly as if the batch had ended
    there, with what they stored still in the store, the counter has moved
    once more for the [null], and nothing after the [null] has any
    effect. *)
Theorem batch_stops_at_null st pre rest props :
  Forall (λ task, task ≠ VNull) pre →
  let st1 := (post_tasks (VArr pre []) st).1 in
  post_tasks (VArr (pre ++ VNull :: rest) props) st
  = ({| dataMap := dataMap st1; nextId := js_succ (nextId st1) |}, TypeError).
Proof.
  intros Hpre. cbv zeta. unfold post_tasks. rewrite post_loop_app.
  destruct (post_loop_without_null pre st [] [] Hpre) as (addedTasks & errors & Hdone).
  destruct (post_loop pre st [] []) as [st1 res]. cbn [snd] in Hdone. subst res.
  cbn [post_loop set_prop]. by case_bool_decide.
Qed.

Lemma batch_stops_at_null_witness :
  post_tasks (VArr [VObj [("title", VStr "a")]; VNull; VObj [("title", VStr "c")]] []) init
  = ({| dataMap := [("1", VObj [("title", VStr "a"); ("id", VStr "1")])]; nextId := 3 |},
     TypeError).
Proof.
  apply (batch_stops_at_null init [VObj [("title", VStr "a")]] [VObj [("title", VStr "c")]] []).
  repeat constructor. discriminate.
Defined.

Lemma post_loop_creates_all tasks st addedTasks errors :
  ids_fresh st →
  nextId st + N.of_nat (length tasks) ≤ max_exact →
  Forall (λ task, task ≠ VNull) tasks →
  ∃ st' created,
    post_loop tasks st addedTasks errors = (st', Some (addedTasks ++ created, errors))
    ∧ nextId st' = nextId st + N.of_nat (length tasks)
    ∧ length created = length tasks
    ∧ ∀ i task, tasks !! i = Some task →
        let id := pretty (nextId st + N.of_nat i) in
        let record := strip_value_id (update_prop "id" (VStr id) task) in
        created !! i = Some record ∧ Table.get id (dataMap st') = Some record.
Proof.
  intros Hst Hlen Htasks. revert st addedTasks errors Hst Hlen.
  induction Htasks as [|task tasks Htask _ IH]; intros st addedTasks errors Hst Hlen.
  { exists st, []. rewrite app_nil_r. split; [done|]. split; [cbn; lia|]. done. }
  cbn [length] in Hlen. cbn [post_loop dataMap nextId].
  assert (set_prop "id" (VStr (pretty (nextId st))) task
          = Some (update_prop "id" (VStr (pretty (nextId st))) task)) as ->.
  { by destruct task. }
  set (record := strip_value_id (update_prop "id" (VStr (pretty (nextId st))) task)).
  assert (Table.has (pretty (nextId st)) (dataMap st) = false) as ->.
  { destruct (Table.has _ _) eqn:Hid; [|done].
    destruct (Hst _ Hid) as (n & Heq & Hn). apply (inj pretty) in Heq. lia. }
  set (st2 := {| dataMap := Table.set (pretty (nextId st)) record (dataMap st);
                 nextId := js_succ (nextId st) |}).
  assert (Hnext2 : nextId st2 = nextId st + 1) by (apply js_succ_below; lia).
  destruct (IH st2 (addedTasks ++ [record]) errors) as (st' & created & Hloop & Hnext & Hcount & Hall).
  { by apply ids_fresh_create. }
  { lia. }
  pose proof (λ k v, post_loop_preserves tasks st2 (addedTasks ++ [record]) errors k v) as Hkept.
  rewrite Hloop in Hkept. cbn [fst] in Hkept.
  exists st', (record :: created). rewrite Hloop, <-app_assoc. split; [done|].
  split; [cbn [length]; lia|]. split; [cbn [length]; lia|].
  intros [|i] task' Htask'; cbn [lookup list_lookup] in Htask'.
  - injection Htask' as <-. cbv zeta. rewrite N.add_0_r. split; [done|].
    apply Hkept. apply get_set_eq.
  - specialize (Hall i task' Htask'). cbv zeta in Hall. rewrite Hnext2 in Hall.
    replace (nextId st + N.of_nat (S i)) with (nextId st + 1 + N.of_nat i) by lia.
    exact Hall.
Qed.

(** A batch without [null] that is posted in a reachable state, with
    [nextId] plus its length at most [2^53], is created whole: the answer
    is 201 with one record per element, in order; element [i] has been
    given the id [nextId + i], has gone through the deletion of a truthy
    nested id, and is the record of that id in the store; [nextId] has
    advanced by the length of the batch. *)
Theorem batch_creates_all st tasks props :
  reachable st →
  nextId st + N.of_nat (length tasks) ≤ max_exact →
  Forall (λ task, task ≠ VNull) tasks →
  ∃ st' created,
    post_tasks (VArr tasks props) st = (st', Json 201 (VArr created []))
    ∧ nextId st' = nextId st + N.of_nat (length tasks)
    ∧ length created = length tasks
    ∧ ∀ i task, tasks !! i = Some task →
        let id := pretty (nextId st + N.of_nat i) in
        let record := strip_value_id (update_prop "id" (VStr id) task) in
        created !! i = Some record ∧ Table.get id (dataMap st') = Some record.
Proof.
  intros Hst%reachable_ids_fresh Hlen Htasks.
  destruct (post_loop_creates_all tasks st [] [] Hst Hlen Htasks)
    as (st' & created & Hloop & Hrest).
  exists st', created. unfold post_tasks. rewrite Hloop. by split.
Qed.

Lemma batch_creates_all_witness :
  ∃ st' created,
    post_tasks (VArr [VObj [("title", VStr "a")]; VObj [("title", VStr "b")]] []) init
    = (st', Json 201 (VArr created []))
    ∧ nextId st' = 3
    ∧ created !! 1%nat = Some (VObj [("title", VStr "b"); ("id", VStr "2")])
    ∧ Table.get "2" (dataMap st') = Some (VObj [("title", VStr "b"); ("id", VStr "2")]).
Proof.
  destruct (batch_creates_all init
              [VObj [("title", VStr "a")]; VObj [("title", VStr "b")]] [])
    as (st' & created & Hpost & Hnext & _ & Hall).
  - exists []. reflexivity.
  - vm_compute. discriminate.
  - repeat constructor; discriminate.
  - exists st', created. split; [exact Hpost|]. split; [exact Hnext|].
    exact (Hall 1%nat (VObj [("title", VStr "b")]) eq_refl).
Defined.

(** ** The nested id after a creation *)

Lemma strip_value_id_done task : has_truthy_nested_id (strip_value_id task) = false.
Proof.
  unfold has_truthy_nested_id, strip_value_id.
  destruct (get_prop "value" task) as [inner|] eqn:Hv; [|by rewrite Hv].
  destruct (truthy inner && truthy_opt (get_prop "id" inner)) eqn:Htest;
    [|by rewrite Hv].
  assert (get_prop "value" (update_prop "value" (delete_prop "id" inner) task)
          = Some (delete_prop "id" inner)) as ->.
  { destruct task; try done; cbn; apply get_set_eq. }
  assert (get_prop "id" (delete_prop "id" inner) = None) as ->.
  { destruct inner; try done; cbn; apply get_delete_eq. }
  apply andb_false_r.
Qed.

Lemma post_loop_added tasks st addedTasks errors (P : value → Prop) :
  (∀ task, P (strip_value_id task)) →
  Forall P addedTasks →
  match (post_loop tasks st addedTasks errors).2 with
  | Some (addedTasks', _) => Forall P addedTasks'
  | None => True
  end.
Proof.
  intros HP. revert st addedTasks errors.
  induction tasks as [|task tasks IH]; intros st addedTasks errors Hadded; [done|].
  cbn [post_loop]. destruct (set_prop "id" _ task); [|done].
  destruct (Table.has _ _); apply IH; [done|].
  apply Forall_app. split; [done|]. by constructor.
Qed.

(** No record comes out of [POST /tasks] with a truthy [id] under a truthy
    [value]: neither the record that a single creation answers with and
    stores, nor any record of the array that a batch answers with. *)
Theorem created_records_have_no_truthy_nested_id st body st' sent :
  post_tasks body st = (st', Json 201 sent) →
  match body with
  | VArr _ _ =>
      ∃ created, sent = VArr created []
                 ∧ Forall (λ record, has_truthy_nested_id record = false) created
  | _ =>
      has_truthy_nested_id sent = false
      ∧ Table.get (pretty (nextId st)) (dataMap st') = Some sent
  end.
Proof.
  unfold post_tasks.
  destruct body as [| | | |elems props|]; cbn [set_prop dataMap nextId];
    try done;
    try (intros [= <- <-]; split; [apply strip_value_id_done|apply get_set_eq]).
  pose proof (post_loop_added elems st [] []
                (λ record, has_truthy_nested_id record = false)
                strip_value_id_done (Forall_nil_2 _)) as Hadded.
  destruct (post_loop elems st [] []) as [st1 [[addedTasks errors]|]]; [|done].
  case_bool_decide; [done|]. intros [= <- <-]. by exists addedTasks.
Qed.

Lemma created_records_have_no_truthy_nested_id_witness :
  ∃ created,
    (post_tasks (VArr [VObj [("value", VObj [("id", VStr "x"); ("n", VNull)])]] []) init).2
    = Json 201 (VArr created [])
    ∧ Forall (λ record, has_truthy_nested_id record = false) created.
Proof.
  destruct (created_records_have_no_truthy_nested_id init
              (VArr [VObj [("value", VObj [("id", VStr "x"); ("n", VNull)])]] [])
              (post_tasks (VArr [VObj [("value", VObj [("id", VStr "x"); ("n", VNull)])]] [])
                 init).1
              (VArr [VObj [("value", VObj [("n", VNull)]); ("id", VStr "1")]] [])
              eq_refl) as (created & Hsent & Hall).
  exists created. split; [|exact Hall]. exact (f_equal (Json 201) Hsent).
Defined.
